(** * EdgeChain IoT configuration header ([arduino/edgechain_iot/config.h])

    The header is a guarded list of object-like macro definitions.  The
    development has three layers:

    - [Lex]: the lexical facts of C that give the macro bodies a meaning
      (character classes, the value of an integer constant, the 128-bit
      value written by a UUID string);
    - [Cpp]: the fragment of the C preprocessor the header is written in
      ([#ifndef], [#define], [#undef], [#endif]) as a fallible step function
      over a macro table and a stack of conditional groups;
    - [Config]: the header itself, directive by directive, and the eight
      constants it defines.

    The theorems at the end relate the three. *)

From Stdlib Require Import ZArith Lia Ascii.
From stdpp Require Import gmap strings list fin_maps.

(** ** Lexical layer *)

Module Lex.

(** [char_in lo hi c]: the code of [c] lies in the closed range [lo..hi]. *)
Definition char_in (lo hi c : ascii) : bool :=
  ((N_of_ascii lo <=? N_of_ascii c) && (N_of_ascii c <=? N_of_ascii hi))%N.

Definition is_digit (c : ascii) : bool := char_in "0" "9" c.
Definition is_upper (c : ascii) : bool := char_in "A" "Z" c.

Definition is_hex_digit (c : ascii) : bool :=
  is_digit c || char_in "a" "f" c || char_in "A" "F" c.

Definition is_hyphen (c : ascii) : bool := Ascii.eqb c "-".

(** Value of one digit in the largest radix C knows (sixteen). *)
Definition digit_value (c : ascii) : option Z :=
  if is_digit c then Some (Z.of_N (N_of_ascii c) - 48)%Z
  else if char_in "a" "f" c then Some (Z.of_N (N_of_ascii c) - 87)%Z
  else if char_in "A" "F" c then Some (Z.of_N (N_of_ascii c) - 55)%Z
  else None.

(** Positional value of a digit sequence, most significant digit first.
    A character that is not a digit of the radix makes the sequence
    ill-formed. *)
Fixpoint digits_value (radix acc : Z) (s : string) : option Z :=
  match s with
  | EmptyString => Some acc
  | String c s' =>
      match digit_value c with
      | Some d =>
          if (d <? radix)%Z then digits_value radix (radix * acc + d)%Z s'
          else None
      | None => None
      end
  end.

Inductive radix : Set := Decimal | Octal | Hexadecimal.

(** An unsuffixed C integer constant: a leading [0x] makes it hexadecimal,
    any other leading [0] makes it octal, a leading non-zero digit makes it
    decimal. *)
Definition integer_constant (s : string) : option (radix * Z) :=
  match s with
  | EmptyString => None
  | String "0" (String "x" ds) | String "0" (String "X" ds) =>
      match ds with
      | EmptyString => None
      | _ => pair Hexadecimal <$> digits_value 16 0 ds
      end
  | String "0" ds => pair Octal <$> digits_value 8 0 ds
  | String c _ =>
      if is_digit c then pair Decimal <$> digits_value 10 0 s else None
  end.

(** Two's-complement range of a signed integer of [bits] bits. *)
Definition fits_signed (bits : Z) (z : Z) : Prop :=
  (- 2 ^ (bits - 1) <= z <= 2 ^ (bits - 1) - 1)%Z.

Definition fits_signedb (bits : Z) (z : Z) : bool :=
  ((- 2 ^ (bits - 1) <=? z) && (z <=? 2 ^ (bits - 1) - 1))%Z.

(** Characters of a string, in order. *)
Fixpoint chars (s : string) : list ascii :=
  match s with
  | EmptyString => []
  | String c s' => c :: chars s'
  end.

Fixpoint drop_hyphens (s : string) : string :=
  match s with
  | EmptyString => EmptyString
  | String c s' =>
      if is_hyphen c then drop_hyphens s' else String c (drop_hyphens s')
  end.

(** The number written by the hexadecimal digits of a UUID string, the
    hyphens being separators only. *)
Definition uuid_value (s : string) : option Z :=
  digits_value 16 0 (drop_hyphens s).

(** Positions of the four hyphens of the 8-4-4-4-12 layout. *)
Definition uuid_hyphen_positions : list nat := [8; 13; 18; 23].

Definition is_hyphen_position (i : nat) : bool :=
  existsb (Nat.eqb i) uuid_hyphen_positions.

(** Case folding of the ASCII letters. *)
Definition to_lower (c : ascii) : ascii :=
  if is_upper c then ascii_of_N (N_of_ascii c + 32) else c.

Fixpoint lowercase (s : string) : string :=
  match s with
  | EmptyString => EmptyString
  | String c s' => String (to_lower c) (lowercase s')
  end.

End Lex.

(** ** The preprocessor fragment *)

Module Cpp.

(** Preprocessing tokens that can make up a macro body. *)
Inductive pp_token : Set :=
  | StringLiteral (contents : string)
  | PPNumber (spelling : string)
  | Identifier (name : string).

#[global] Instance pp_token_eq_dec : EqDecision pp_token.
Proof. solve_decision. Defined.

Inductive directive : Set :=
  | Ifndef (name : string)
  | Define (name : string) (body : list pp_token)
  | Undef (name : string)
  | Endif.

(** The macro table, and the stack of open conditional groups: each entry
    records whether the text of that group is being kept. *)
Record pp_state : Type := PPState {
  macros : gmap string (list pp_token);
  groups : list bool
}.

Definition keeping (st : pp_state) : bool :=
  match groups st with
  | [] => true
  | b :: _ => b
  end.

Definition is_defined (n : string) (m : gmap string (list pp_token)) : bool :=
  bool_decide (is_Some (m !! n)).

(** One directive.  Failure ([None]) is a diagnosed error: an [#endif]
    without an open group, or a redefinition of a macro with a different
    replacement list. *)
Definition step (d : directive) (st : pp_state) : option pp_state :=
  match d with
  | Ifndef n =>
      Some (PPState (macros st)
              ((keeping st && negb (is_defined n (macros st))) :: groups st))
  | Endif =>
      match groups st with
      | [] => None
      | _ :: gs => Some (PPState (macros st) gs)
      end
  | Define n body =>
      if keeping st then
        match macros st !! n with
        | None => Some (PPState (<[n := body]> (macros st)) (groups st))
        | Some old => if decide (old = body) then Some st else None
        end
      else Some st
  | Undef n =>
      if keeping st then Some (PPState (delete n (macros st)) (groups st))
      else Some st
  end.

Fixpoint run (ds : list directive) (st : pp_state) : option pp_state :=
  match ds with
  | [] => Some st
  | d :: ds' => step d st ≫= run ds'
  end.

(** [#include] of a file made of directives: every group the file opens
    must be closed by its end. *)
Definition include (file : list directive) (m : gmap string (list pp_token))
  : option (gmap string (list pp_token)) :=
  st ← run file (PPState m []);
  match groups st with
  | [] => Some (macros st)
  | _ :: _ => None
  end.

(** Including the same file [k] more times. *)
Fixpoint include_again (k : nat) (file : list directive)
    (m : gmap string (list pp_token)) : option (gmap string (list pp_token)) :=
  match k with
  | O => Some m
  | S k' => include file m ≫= include_again k' file
  end.

(** Number of [#define] directives for [n]. *)
Definition defines (n : string) (d : directive) : bool :=
  match d with
  | Define n' _ => bool_decide (n' = n)
  | _ => false
  end.

Definition define_count (n : string) (ds : list directive) : nat :=
  length (filter (λ d, defines n d = true) ds).

(** A directive that refers to [n] without being a definition of it: a
    test of it, a removal of it, or a replacement list that names it. *)
Definition names_token (n : string) (t : pp_token) : bool :=
  match t with
  | Identifier n' => bool_decide (n' = n)
  | _ => false
  end.

Definition refers_to (n : string) (d : directive) : bool :=
  match d with
  | Ifndef n' => bool_decide (n' = n)
  | Undef n' => bool_decide (n' = n)
  | Define _ body => existsb (names_token n) body
  | Endif => false
  end.

(** Values a fully replaced macro body can denote. *)
Inductive value : Set :=
  | VString (s : string)
  | VInt (z : Z).

#[global] Instance value_eq_dec : EqDecision value.
Proof. solve_decision. Defined.

Definition eval_token (t : pp_token) : option value :=
  match t with
  | StringLiteral s => Some (VString s)
  | PPNumber s => VInt ∘ snd <$> Lex.integer_constant s
  | Identifier _ => None
  end.

(** Use of a name in a consuming translation unit: the name is replaced by
    its body, which must be a single constant.  The macro table is handed
    back, as replacement does not touch it. *)
Definition access (n : string) (m : gmap string (list pp_token))
  : option value * gmap string (list pp_token) :=
  (m !! n ≫= λ body,
     match body with
     | [t] => eval_token t
     | _ => None
     end,
   m).

(** A sequence of uses, threading the macro table. *)
Fixpoint access_all (ns : list string) (m : gmap string (list pp_token))
  : list (option value) * gmap string (list pp_token) :=
  match ns with
  | [] => ([], m)
  | n :: ns' =>
      let '(v, m1) := access n m in
      let '(vs, m2) := access_all ns' m1 in
      (v :: vs, m2)
  end.

(** Directives that enter a macro definition. *)
Definition is_define (d : directive) : Prop :=
  match d with
  | Define _ _ => True
  | _ => False
  end.

End Cpp.

(** ** The header *)

Module Config.
Import Cpp.

(** *** The constants, as a consuming translation unit sees them *)

(* BLE Service Configuration *)
Definition BLE_SERVICE_UUID : string := "12345678-1234-5678-1234-56789abcdef0".
Definition DATA_CHAR_UUID : string := "87654321-4321-8765-4321-fedcba987654".

(* Device Identity *)
Definition DEVICE_ID : string := "EDGECHAIN_DEMO_001".
Definition BLE_LOCAL_NAME : string := "EdgeChain-Demo".

(* Timing Configuration *)
Definition READING_INTERVAL_MS : Z := 5000.
Definition BAUD_RATE : Z := 115200.

(* Buffer Sizes *)
Definition JSON_BUFFER_SIZE : Z := 64.
Definition TX_PAYLOAD_MAX_SIZE : Z := 256.

(** *** The text of the header, directive by directive *)

Definition EDGECHAIN_CONFIG_H : string := "EDGECHAIN_CONFIG_H".

Definition config_h : list directive :=
  [ Ifndef "EDGECHAIN_CONFIG_H";
    Define "EDGECHAIN_CONFIG_H" [];
    Define "BLE_SERVICE_UUID"
      [StringLiteral "12345678-1234-5678-1234-56789abcdef0"];
    Define "DATA_CHAR_UUID"
      [StringLiteral "87654321-4321-8765-4321-fedcba987654"];
    Define "DEVICE_ID" [StringLiteral "EDGECHAIN_DEMO_001"];
    Define "BLE_LOCAL_NAME" [StringLiteral "EdgeChain-Demo"];
    Define "READING_INTERVAL_MS" [PPNumber "5000"];
    Define "BAUD_RATE" [PPNumber "115200"];
    Define "JSON_BUFFER_SIZE" [PPNumber "64"];
    Define "TX_PAYLOAD_MAX_SIZE" [PPNumber "256"];
    Endif ].

(** *** The configuration table *)

Inductive config_key : Set :=
  | KServiceUuid
  | KDataCharUuid
  | KDeviceId
  | KLocalName
  | KReadingInterval
  | KBaudRate
  | KJsonBuffer
  | KTxPayloadMax.

#[global] Instance config_key_eq_dec : EqDecision config_key.
Proof. solve_decision. Defined.

Definition all_keys : list config_key :=
  [ KServiceUuid; KDataCharUuid; KDeviceId; KLocalName;
    KReadingInterval; KBaudRate; KJsonBuffer; KTxPayloadMax ].

Definition key_name (k : config_key) : string :=
  match k with
  | KServiceUuid => "BLE_SERVICE_UUID"
  | KDataCharUuid => "DATA_CHAR_UUID"
  | KDeviceId => "DEVICE_ID"
  | KLocalName => "BLE_LOCAL_NAME"
  | KReadingInterval => "READING_INTERVAL_MS"
  | KBaudRate => "BAUD_RATE"
  | KJsonBuffer => "JSON_BUFFER_SIZE"
  | KTxPayloadMax => "TX_PAYLOAD_MAX_SIZE"
  end.

Definition config_value (k : config_key) : value :=
  match k with
  | KServiceUuid => VString BLE_SERVICE_UUID
  | KDataCharUuid => VString DATA_CHAR_UUID
  | KDeviceId => VString DEVICE_ID
  | KLocalName => VString BLE_LOCAL_NAME
  | KReadingInterval => VInt READING_INTERVAL_MS
  | KBaudRate => VInt BAUD_RATE
  | KJsonBuffer => VInt JSON_BUFFER_SIZE
  | KTxPayloadMax => VInt TX_PAYLOAD_MAX_SIZE
  end.

(** The replacement list the header gives to a key. *)
Definition key_body (k : config_key) : list pp_token :=
  match k with
  | KServiceUuid => [StringLiteral "12345678-1234-5678-1234-56789abcdef0"]
  | KDataCharUuid => [StringLiteral "87654321-4321-8765-4321-fedcba987654"]
  | KDeviceId => [StringLiteral "EDGECHAIN_DEMO_001"]
  | KLocalName => [StringLiteral "EdgeChain-Demo"]
  | KReadingInterval => [PPNumber "5000"]
  | KBaudRate => [PPNumber "115200"]
  | KJsonBuffer => [PPNumber "64"]
  | KTxPayloadMax => [PPNumber "256"]
  end.

Definition uuid_constants : list string := [BLE_SERVICE_UUID; DATA_CHAR_UUID].

Definition name_constants : list string := [DEVICE_ID; BLE_LOCAL_NAME].

Definition numeric_keys : list config_key :=
  [KReadingInterval; KBaudRate; KJsonBuffer; KTxPayloadMax].

(** A macro table in which neither the guard nor any of the eight names is
    taken: the situation at the first inclusion of the header. *)
Definition fresh (m : gmap string (list pp_token)) : Prop :=
  m !! EDGECHAIN_CONFIG_H = None ∧ ∀ k, m !! key_name k = None.

(** The definition the header holds for a key, and its effect on a macro
    table. *)
Definition define_key (k : config_key) : directive :=
  Define (key_name k) (key_body k).

Definition install (m : gmap string (list pp_token)) (k : config_key)
  : gmap string (list pp_token) :=
  <[key_name k := key_body k]> m.

(** The guard and the eight definitions entered into [m], in the order of
    the header. *)
Definition installed (m : gmap string (list pp_token))
  : gmap string (list pp_token) :=
  foldl install (<[EDGECHAIN_CONFIG_H := []]> m) all_keys.

(** The macro table a translation unit has after including the header
    first thing, and the value a name then stands for. *)
Definition config_macros : option (gmap string (list pp_token)) :=
  include config_h ∅.

Definition macro_value (n : string) : option value :=
  config_macros ≫= λ m, (access n m).1.

(** Spelling of the integer constant a key is defined as, read off the
    header. *)
Definition first_body (n : string) (ds : list directive)
  : option (list pp_token) :=
  head (omap (λ d, match d with
                   | Define n' b => if decide (n' = n) then Some b else None
                   | _ => None
                   end) ds).

Definition spelling (k : config_key) : option string :=
  first_body (key_name k) config_h ≫= λ b,
    match b with
    | [PPNumber s] => Some s
    | _ => None
    end.

(** Modelled from the spec: the "standard serial-rate set" is named by the
    specification but enumerated neither there nor in the header; it is
    taken to be the rates the Arduino reference lists for [Serial.begin]. *)
Definition standard_baud_rates : list Z :=
  [300; 600; 1200; 2400; 4800; 9600; 14400; 19200; 28800; 38400; 57600;
   115200]%Z.

(** A macro table the header can be included into without conflict: each
    of the eight names is undefined, or defined as the header defines it. *)
Definition compatible (m : gmap string (list pp_token)) : Prop :=
  ∀ k, m !! key_name k = None ∨ m !! key_name k = Some (key_body k).

(** The nine names the header defines: its guard and the eight constants. *)
Definition header_names : gset string :=
  list_to_set (EDGECHAIN_CONFIG_H :: (key_name <$> all_keys)).

End Config.

(** ** Facts about the preprocessor fragment *)

Section PreprocessorFacts.
Import Cpp.
Implicit Types (m : gmap string (list pp_token)) (st : pp_state).

Lemma run_app ds1 ds2 st : run (ds1 ++ ds2) st = run ds1 st ≫= run ds2.
Proof.
  revert st. induction ds1 as [|d ds1 IH]; intros st; simpl; [done|].
  destruct (step d st) as [st'|]; simpl; [apply IH | done].
Qed.

Lemma step_define_fresh n b st :
  keeping st = true → macros st !! n = None →
  step (Define n b) st = Some (PPState (<[n := b]> (macros st)) (groups st)).
Proof. intros Hk Hn. simpl. by rewrite Hk, Hn. Qed.

End PreprocessorFacts.

(** ** Facts about the header *)

Section HeaderFacts.
Import Cpp Config.
Implicit Types (m : gmap string (list pp_token)) (st : pp_state) (k : config_key).

Lemma config_h_shape :
  config_h =
    Ifndef EDGECHAIN_CONFIG_H :: Define EDGECHAIN_CONFIG_H []
      :: (define_key <$> all_keys) ++ [Endif].
Proof. reflexivity. Qed.

Lemma key_name_inj k1 k2 : key_name k1 = key_name k2 → k1 = k2.
Proof. destruct k1, k2; simpl; intros H; first [reflexivity | discriminate H]. Qed.

Lemma key_name_not_guard k : key_name k ≠ EDGECHAIN_CONFIG_H.
Proof. destruct k; discriminate. Qed.

Lemma all_keys_complete k : k ∈ all_keys.
Proof. apply list_elem_of_In. destruct k; simpl; tauto. Qed.

Lemma all_keys_NoDup : NoDup all_keys.
Proof. apply (bool_decide_unpack _). vm_compute. exact I. Qed.

Lemma foldl_install_other ks m n :
  (∀ k, k ∈ ks → key_name k ≠ n) → foldl install m ks !! n = m !! n.
Proof.
  revert m. induction ks as [|a ks IH]; intros m Hn; simpl; [done|].
  rewrite IH by (intros k Hk; apply Hn; by right).
  unfold install. apply lookup_insert_ne, Hn. by left.
Qed.

Lemma foldl_install_lookup ks m k :
  m !! key_name k = Some (key_body k) ∨ k ∈ ks →
  foldl install m ks !! key_name k = Some (key_body k).
Proof.
  revert m. induction ks as [|a ks IH]; intros m H; simpl.
  - destruct H as [H|H]; [done | by apply elem_of_nil in H].
  - apply IH. unfold install.
    destruct (decide (a = k)) as [->|Hne].
    + left. apply lookup_insert_eq.
    + destruct H as [H|H].
      * left. rewrite lookup_insert_ne; [done|]. intros E. by apply key_name_inj in E.
      * right. apply elem_of_cons in H as [->|H]; done.
Qed.

Lemma run_defines_skipped ks st :
  keeping st = false → run (define_key <$> ks) st = Some st.
Proof.
  intros Hk. induction ks as [|a ks IH]; simpl; [done|].
  rewrite Hk. simpl. exact IH.
Qed.

Lemma run_defines_fresh ks st :
  keeping st = true → NoDup ks →
  (∀ k, k ∈ ks → macros st !! key_name k = None) →
  run (define_key <$> ks) st
  = Some (PPState (foldl install (macros st) ks) (groups st)).
Proof.
  revert st. induction ks as [|a ks IH]; intros st Hk Hnd Hfree.
  - by destruct st.
  - apply NoDup_cons in Hnd as [Ha Hnd].
    rewrite fmap_cons. change (run (?d :: ?ds) ?s) with (step d s ≫= run ds).
    change (define_key a) with (Define (key_name a) (key_body a)).
    rewrite step_define_fresh by (auto; apply Hfree; by left).
    cbn [mbind option_bind]. rewrite IH; [done | done | done |].
    intros k Hin. cbn [macros]. rewrite lookup_insert_ne.
    + apply Hfree. by right.
    + intros E. apply key_name_inj in E. by subst.
Qed.

Lemma include_fresh m : fresh m → include config_h m = Some (installed m).
Proof.
  intros [Hg Hfree]. rewrite config_h_shape. unfold include.
  cbn [run step mbind option_bind macros groups keeping].
  unfold is_defined. rewrite bool_decide_eq_false_2 by (rewrite Hg; by intros [? ?]).
  rewrite Hg. cbn [negb andb mbind option_bind].
  rewrite run_app, run_defines_fresh.
  - reflexivity.
  - reflexivity.
  - apply all_keys_NoDup.
  - intros k _. cbn [macros]. rewrite lookup_insert_ne; [apply Hfree|].
    intros E. by apply (key_name_not_guard k).
Qed.

Lemma include_guarded m :
  is_Some (m !! EDGECHAIN_CONFIG_H) → include config_h m = Some m.
Proof.
  intros Hg. rewrite config_h_shape. unfold include.
  cbn [run step mbind option_bind macros groups keeping].
  unfold is_defined. rewrite bool_decide_eq_true_2 by exact Hg.
  cbn [negb andb mbind option_bind].
  rewrite run_app, run_defines_skipped by reflexivity.
  reflexivity.
Qed.

Lemma installed_guard m : installed m !! EDGECHAIN_CONFIG_H = Some [].
Proof.
  unfold installed. rewrite foldl_install_other.
  - apply lookup_insert_eq.
  - intros k _. apply key_name_not_guard.
Qed.

Lemma installed_key m k : installed m !! key_name k = Some (key_body k).
Proof. apply foldl_install_lookup. right. apply all_keys_complete. Qed.

Lemma installed_other m n :
  n ≠ EDGECHAIN_CONFIG_H → (∀ k, key_name k ≠ n) → installed m !! n = m !! n.
Proof.
  intros Hg Hn. unfold installed. rewrite foldl_install_other by auto.
  by rewrite lookup_insert_ne.
Qed.

Lemma include_again_installed j m :
  include_again j config_h (installed m) = Some (installed m).
Proof.
  induction j as [|j IH]; simpl; [done|].
  rewrite include_guarded by (rewrite installed_guard; eauto). exact IH.
Qed.

Lemma key_body_value k :
  ∃ t, key_body k = [t] ∧ eval_token t = Some (config_value k).
Proof. destruct k; eexists; split; reflexivity. Qed.

Lemma access_installed m k :
  access (key_name k) (installed m) = (Some (config_value k), installed m).
Proof.
  unfold access. rewrite installed_key.
  destruct (key_body_value k) as (t & -> & Ht). simpl. by rewrite Ht.
Qed.

Lemma access_all_installed m ks :
  access_all (key_name <$> ks) (installed m)
  = (Some ∘ config_value <$> ks, installed m).
Proof.
  induction ks as [|k ks IH]; [done|].
  rewrite !fmap_cons. cbn [access_all].
  rewrite access_installed, IH. reflexivity.
Qed.

End HeaderFacts.

(** ** The claims about the configuration table *)

Section Claims.
Import Cpp Config.
Local Open Scope Z_scope.

Lemma fits_signedb_spec bits z :
  Lex.fits_signedb bits z = true ↔ Lex.fits_signed bits z.
Proof.
  unfold Lex.fits_signedb, Lex.fits_signed.
  rewrite andb_true_iff, !Z.leb_le. reflexivity.
Qed.

Lemma macro_value_key k : macro_value (key_name k) = Some (config_value k).
Proof.
  unfold macro_value, config_macros.
  rewrite include_fresh by (split; [|intros ?]; apply lookup_empty).
  cbn [mbind option_bind]. by rewrite access_installed.
Qed.

(** C1. Each of the two UUID constants is 36 characters long, with a hyphen
    at positions 8, 13, 18 and 23 and a hexadecimal digit at every other
    position (the canonical 8-4-4-4-12 form). *)
Theorem uuid_constants_canonical (u : string) :
  In u uuid_constants →
  String.length u = 36%nat ∧
  ∀ (i : nat) (c : ascii), String.get i u = Some c →
    if Lex.is_hyphen_position i then c = "-"%char
    else Lex.is_hex_digit c = true.
Proof.
  intros [<-|[<-|[]]]; (split; [reflexivity|]); intros i c;
    do 36 (destruct i as [|i]; [intros [= <-]; reflexivity|]);
    simpl; discriminate.
Qed.

Lemma uuid_constants_canonical_witness :
  String.length DATA_CHAR_UUID = 36%nat ∧
  ∀ (i : nat) (c : ascii), String.get i DATA_CHAR_UUID = Some c →
    if Lex.is_hyphen_position i then c = "-"%char
    else Lex.is_hex_digit c = true.
Proof.
  apply (uuid_constants_canonical DATA_CHAR_UUID).
  simpl. right. left. reflexivity.
Defined.

(** C2. The service UUID and the characteristic UUID are different
    strings, and the 128-bit numbers they write are different. *)
Theorem uuid_constants_distinct :
  BLE_SERVICE_UUID ≠ DATA_CHAR_UUID ∧
  ∃ a b : Z,
    Lex.uuid_value BLE_SERVICE_UUID = Some a ∧
    Lex.uuid_value DATA_CHAR_UUID = Some b ∧
    0 <= a < 2 ^ 128 ∧ 0 <= b < 2 ^ 128 ∧ a ≠ b.
Proof.
  split; [discriminate|].
  eexists _, _.
  split; [vm_compute; reflexivity|].
  split; [vm_compute; reflexivity|].
  repeat split; try (vm_compute; discriminate); reflexivity.
Qed.

(** C3. Both buffer capacities are positive, and the outbound-payload
    capacity (256) is at least the encoded-message capacity (64). *)
Theorem buffer_sizes_ordered :
  macro_value "JSON_BUFFER_SIZE" = Some (VInt JSON_BUFFER_SIZE) ∧
  macro_value "TX_PAYLOAD_MAX_SIZE" = Some (VInt TX_PAYLOAD_MAX_SIZE) ∧
  0 < JSON_BUFFER_SIZE ∧ 0 < TX_PAYLOAD_MAX_SIZE ∧
  JSON_BUFFER_SIZE <= TX_PAYLOAD_MAX_SIZE ∧
  JSON_BUFFER_SIZE = 64 ∧ TX_PAYLOAD_MAX_SIZE = 256.
Proof.
  split; [exact (macro_value_key KJsonBuffer)|].
  split; [exact (macro_value_key KTxPayloadMax)|].
  unfold JSON_BUFFER_SIZE, TX_PAYLOAD_MAX_SIZE. lia.
Qed.

(** C4. The reading interval is positive and equals 5000 milliseconds. *)
Theorem reading_interval_value :
  macro_value "READING_INTERVAL_MS" = Some (VInt READING_INTERVAL_MS) ∧
  0 < READING_INTERVAL_MS ∧ READING_INTERVAL_MS = 5000.
Proof.
  split; [exact (macro_value_key KReadingInterval)|].
  unfold READING_INTERVAL_MS. lia.
Qed.

(** C5. The baud rate is positive, is one of the standard serial rates and
    equals 115200 bits per second. *)
Theorem baud_rate_standard :
  macro_value "BAUD_RATE" = Some (VInt BAUD_RATE) ∧
  0 < BAUD_RATE ∧ In BAUD_RATE standard_baud_rates ∧ BAUD_RATE = 115200.
Proof.
  split; [exact (macro_value_key KBaudRate)|].
  unfold BAUD_RATE, standard_baud_rates. simpl. intuition lia.
Qed.

(** C6. The device identifier and the advertised name are non-empty
    strings. *)
Theorem identity_strings_nonempty :
  macro_value "DEVICE_ID" = Some (VString DEVICE_ID) ∧
  macro_value "BLE_LOCAL_NAME" = Some (VString BLE_LOCAL_NAME) ∧
  Forall (λ s, s ≠ EmptyString ∧ (0 < String.length s)%nat) name_constants.
Proof.
  split; [exact (macro_value_key KDeviceId)|].
  split; [exact (macro_value_key KLocalName)|].
  repeat constructor; try discriminate; simpl; lia.
Qed.

(** C7. Every constant of the table is fixed once and for all: the header
    holds exactly one definition of each of the eight names and no
    directive that tests, removes or uses the name; including the header
    enters each name with its replacement list, and any number of further
    inclusions leaves the macro table as it is. *)
Theorem config_constants_immutable (m : gmap string (list pp_token)) :
  fresh m →
  (∀ k, define_count (key_name k) config_h = 1%nat ∧
        Forall (λ d, refers_to (key_name k) d = false) config_h) ∧
  ∃ m',
    include config_h m = Some m' ∧
    (∀ k, m' !! key_name k = Some (key_body k)) ∧
    (∀ j, include_again j config_h m' = Some m') ∧
    (∀ j m'' k, include_again j config_h m' = Some m'' →
       (access (key_name k) m'').1 = Some (config_value k)).
Proof.
  intros Hm. split.
  - intros k. split.
    + destruct k; reflexivity.
    + destruct k; repeat constructor.
  - exists (installed m).
    split; [by apply include_fresh|].
    split; [apply installed_key|].
    split; [intros j; apply include_again_installed|].
    intros j m'' k. rewrite include_again_installed. intros [= <-].
    by rewrite access_installed.
Qed.

Lemma config_constants_immutable_witness :
  (∀ k, define_count (key_name k) config_h = 1%nat ∧
        Forall (λ d, refers_to (key_name k) d = false) config_h) ∧
  ∃ m',
    include config_h ∅ = Some m' ∧
    (∀ k, m' !! key_name k = Some (key_body k)) ∧
    (∀ j, include_again j config_h m' = Some m') ∧
    (∀ j m'' k, include_again j config_h m' = Some m'' →
       (access (key_name k) m'').1 = Some (config_value k)).
Proof.
  apply (config_constants_immutable ∅).
  split; [reflexivity | intros k; reflexivity].
Defined.

(** C8. Access to a configuration constant cannot fail: once the header is
    included, every one of the eight names evaluates to its fixed value,
    the macro table is left untouched, and any sequence of accesses yields
    the same fixed values again. *)
Theorem config_access_total (m : gmap string (list pp_token)) :
  fresh m →
  ∃ m',
    include config_h m = Some m' ∧
    (∀ k, access (key_name k) m' = (Some (config_value k), m')) ∧
    (∀ ks, access_all (key_name <$> ks) m'
           = (Some ∘ config_value <$> ks, m')).
Proof.
  intros Hm. exists (installed m).
  split; [by apply include_fresh|].
  split; [apply access_installed | intros ks; apply access_all_installed].
Qed.

Lemma config_access_total_witness :
  ∃ m',
    include config_h ∅ = Some m' ∧
    (∀ k, access (key_name k) m' = (Some (config_value k), m')) ∧
    (∀ ks, access_all (key_name <$> ks) m'
           = (Some ∘ config_value <$> ks, m')).
Proof.
  apply (config_access_total ∅).
  split; [reflexivity | intros k; reflexivity].
Defined.

(** C9. Neither UUID constant contains an uppercase letter: every
    character is a decimal digit, a letter from [a] to [f] or a hyphen, so
    that folding the string to lower case changes nothing. *)
Theorem uuid_constants_lowercase (u : string) :
  In u uuid_constants →
  (∀ c, In c (Lex.chars u) →
     Lex.is_upper c = false ∧
     (Lex.is_digit c || Lex.char_in "a" "f" c || Lex.is_hyphen c) = true) ∧
  Lex.lowercase u = u.
Proof.
  intros [<-|[<-|[]]]; (split; [|reflexivity]);
    apply List.Forall_forall; repeat constructor.
Qed.

Lemma uuid_constants_lowercase_witness :
  (∀ c, In c (Lex.chars BLE_SERVICE_UUID) →
     Lex.is_upper c = false ∧
     (Lex.is_digit c || Lex.char_in "a" "f" c || Lex.is_hyphen c) = true) ∧
  Lex.lowercase BLE_SERVICE_UUID = BLE_SERVICE_UUID.
Proof.
  apply (uuid_constants_lowercase BLE_SERVICE_UUID).
  simpl. left. reflexivity.
Defined.

(** C10. Each of the four numeric constants is written as a decimal
    integer constant (5000, 115200, 64, 256) whose value fits a signed
    32-bit integer; the value fits a signed 16-bit integer for every one
    of them except [BAUD_RATE]. *)
Theorem numeric_constants_fit_int32 :
  [READING_INTERVAL_MS; BAUD_RATE; JSON_BUFFER_SIZE; TX_PAYLOAD_MAX_SIZE]
    = [5000; 115200; 64; 256] ∧
  Forall (λ k, ∃ (sp : string) (z : Z),
            spelling k = Some sp ∧
            Lex.integer_constant sp = Some (Lex.Decimal, z) ∧
            config_value k = VInt z ∧
            Lex.fits_signed 32 z ∧
            (¬ Lex.fits_signed 16 z ↔ k = KBaudRate))
         numeric_keys.
Proof.
  split; [reflexivity|].
  repeat constructor;
    (eexists _, _;
     split; [reflexivity|];
     split; [reflexivity|];
     split; [reflexivity|];
     split; [by apply fits_signedb_spec|]);
    rewrite <- fits_signedb_spec; (split; [intros H | intros [=]]);
    try reflexivity; try (by destruct H); by intros [=].
Qed.

End Claims.

(** ** The header in an arbitrary context *)

Section Inclusion.
Import Cpp Config.
Implicit Types (m : gmap string (list pp_token)) (st : pp_state).
Implicit Types (k : config_key) (ks : list config_key).

Lemma step_define_groups n b st st' :
  step (Define n b) st = Some st' → groups st' = groups st.
Proof.
  simpl. destruct (keeping st); [|by intros [= <-]].
  destruct (macros st !! n) as [old|]; [|by intros [= <-]].
  case_decide; [by intros [= <-] | done].
Qed.

Lemma step_define_other n b st st' n' :
  step (Define n b) st = Some st' → n ≠ n' →
  macros st' !! n' = macros st !! n'.
Proof.
  simpl. intros H Hne. destruct (keeping st); [|by injection H as <-].
  destruct (macros st !! n) as [old|].
  - case_decide; [by injection H as <- | done].
  - injection H as <-. simpl. by apply lookup_insert_ne.
Qed.

Lemma run_defines_groups ds st st' :
  Forall is_define ds → run ds st = Some st' → groups st' = groups st.
Proof.
  intros Hds. revert st. induction Hds as [|d ds Hd _ IH]; intros st.
  - by intros [= <-].
  - destruct d as [|n b| |]; try done.
    change (run (Define n b :: ds) st) with (step (Define n b) st ≫= run ds).
    destruct (step (Define n b) st) as [st1|] eqn:E; [|done].
    cbn [mbind option_bind]. intros H. rewrite (IH _ H).
    by eapply step_define_groups.
Qed.

Lemma step_define_compatible k st :
  keeping st = true →
  macros st !! key_name k = None ∨ macros st !! key_name k = Some (key_body k) →
  step (define_key k) st
  = Some (PPState (install (macros st) k) (groups st)).
Proof.
  intros Hk [H|H]; unfold define_key, install; simpl; rewrite Hk, H.
  - done.
  - rewrite decide_True by done. rewrite insert_id by done. by destruct st.
Qed.

Lemma run_defines_compatible ks st :
  keeping st = true →
  (∀ k, k ∈ ks → macros st !! key_name k = None
                 ∨ macros st !! key_name k = Some (key_body k)) →
  run (define_key <$> ks) st
  = Some (PPState (foldl install (macros st) ks) (groups st)).
Proof.
  revert st. induction ks as [|a ks IH]; intros st Hk Hc.
  - by destruct st.
  - rewrite fmap_cons.
    change (run (?d :: ?ds) ?s) with (step d s ≫= run ds).
    rewrite step_define_compatible by (auto; apply Hc; by left).
    cbn [mbind option_bind]. rewrite IH; [done | done |].
    intros k Hin. cbn [macros]. unfold install.
    destruct (decide (a = k)) as [->|Hne].
    + right. apply lookup_insert_eq.
    + rewrite lookup_insert_ne; [apply Hc; by right|].
      intros E. by apply key_name_inj in E.
Qed.

Lemma run_defines_conflict ks st k b :
  keeping st = true → k ∈ ks →
  macros st !! key_name k = Some b → b ≠ key_body k →
  run (define_key <$> ks) st = None.
Proof.
  revert st. induction ks as [|a ks IH]; intros st Hk Hin Hb Hne.
  - by apply elem_of_nil in Hin.
  - rewrite fmap_cons.
    change (run (?d :: ?ds) ?s) with (step d s ≫= run ds).
    destruct (decide (a = k)) as [->|Hak].
    + unfold define_key. simpl. rewrite Hk, Hb. by rewrite decide_False.
    + destruct (step (define_key a) st) as [st1|] eqn:E; [|done].
      cbn [mbind option_bind]. apply IH.
      * unfold keeping. rewrite (step_define_groups _ _ _ _ E). exact Hk.
      * apply elem_of_cons in Hin as [->|Hin]; done.
      * rewrite (step_define_other _ _ _ _ (key_name k) E); [done|].
        intros E'. by apply key_name_inj in E'.
      * done.
Qed.

Lemma include_unguarded m :
  m !! EDGECHAIN_CONFIG_H = None →
  include config_h m
  = run (define_key <$> all_keys) (PPState (<[EDGECHAIN_CONFIG_H := []]> m) [true])
      ≫= λ st, match groups st with
                | [_] => Some (macros st)
                | _ => None
                end.
Proof.
  intros Hg. rewrite config_h_shape. unfold include.
  cbn [run step mbind option_bind macros groups keeping].
  unfold is_defined. rewrite bool_decide_eq_false_2 by (rewrite Hg; by intros [? ?]).
  rewrite Hg. cbn [negb andb mbind option_bind]. rewrite run_app.
  destruct (run _ _) as [st|]; [|done].
  cbn [mbind option_bind run step].
  destruct (groups st) as [|g [|g' gs]]; done.
Qed.

Lemma guard_insert_lookup m k :
  <[EDGECHAIN_CONFIG_H := []]> m !! key_name k = m !! key_name k.
Proof. apply lookup_insert_ne. intros E. by apply (key_name_not_guard k). Qed.

Lemma include_compatible m :
  m !! EDGECHAIN_CONFIG_H = None → compatible m →
  include config_h m = Some (installed m).
Proof.
  intros Hg Hc. rewrite include_unguarded by done.
  rewrite run_defines_compatible; [done | done |].
  intros k _. cbn [macros]. rewrite guard_insert_lookup. apply Hc.
Qed.

Lemma include_conflict m k b :
  m !! EDGECHAIN_CONFIG_H = None →
  m !! key_name k = Some b → b ≠ key_body k →
  include config_h m = None.
Proof.
  intros Hg Hb Hne. rewrite include_unguarded by done.
  rewrite (run_defines_conflict _ _ k b); [done | done | | | done].
  - apply all_keys_complete.
  - cbn [macros]. by rewrite guard_insert_lookup.
Qed.

Lemma include_success_compatible m :
  m !! EDGECHAIN_CONFIG_H = None → is_Some (include config_h m) → compatible m.
Proof.
  intros Hg Hs k. destruct (m !! key_name k) as [b|] eqn:Hb; [|by left].
  right. destruct (decide (b = key_body k)) as [->|Hne]; [done|].
  rewrite (include_conflict m k b) in Hs by done. by destruct Hs.
Qed.

Lemma include_unguarded_result m m' :
  m !! EDGECHAIN_CONFIG_H = None → include config_h m = Some m' →
  m' = installed m.
Proof.
  intros Hg H. assert (compatible m) as Hc.
  { apply include_success_compatible; [done | by rewrite H]. }
  rewrite include_compatible in H by done. by injection H.
Qed.

Lemma foldl_install_id ks m :
  (∀ k, k ∈ ks → m !! key_name k = Some (key_body k)) →
  foldl install m ks = m.
Proof.
  induction ks as [|a ks IH]; intros H; simpl; [done|].
  unfold install at 2. rewrite insert_id by (apply H; by left).
  apply IH. intros k Hk. apply H. by right.
Qed.

Lemma elem_of_header_names n :
  n ∈ header_names ↔ n = EDGECHAIN_CONFIG_H ∨ ∃ k, n = key_name k.
Proof.
  unfold header_names. rewrite elem_of_list_to_set, elem_of_cons, list_elem_of_fmap.
  split; intros [H|H]; [by left | right | by left | right].
  - destruct H as (k & -> & _). by exists k.
  - destruct H as (k & ->). exists k. split; [done | apply all_keys_complete].
Qed.

(** X1. Wherever the guard macro is already defined, with whatever
    replacement list and whatever the other macros are, including the
    header any number of times succeeds and changes nothing. *)
Theorem include_guard_noop m (j : nat) :
  is_Some (m !! EDGECHAIN_CONFIG_H) →
  include_again j config_h m = Some m.
Proof.
  intros Hg. induction j as [|j IH]; simpl; [done|].
  by rewrite include_guarded.
Qed.

Lemma include_guard_noop_witness :
  include_again 3 config_h
    (<["BAUD_RATE" := [PPNumber "9600"]]> {[EDGECHAIN_CONFIG_H := []]})
  = Some (<["BAUD_RATE" := [PPNumber "9600"]]> {[EDGECHAIN_CONFIG_H := []]}).
Proof.
  apply (include_guard_noop
           (<["BAUD_RATE" := [PPNumber "9600"]]> {[EDGECHAIN_CONFIG_H := []]}) 3).
  exists []. reflexivity.
Defined.

(** X2. A successful first inclusion touches the nine names of the header
    and nothing else: every other name keeps the definition it had (or
    stays undefined), and the names defined afterwards are those defined
    before together with the guard and the eight constants. *)
Theorem include_frame m m' :
  m !! EDGECHAIN_CONFIG_H = None →
  include config_h m = Some m' →
  (∀ n, n ∉ header_names → m' !! n = m !! n) ∧
  dom m' = dom m ∪ header_names ∧
  m' !! EDGECHAIN_CONFIG_H = Some [] ∧
  (∀ k, m' !! key_name k = Some (key_body k)).
Proof.
  intros Hg H. apply include_unguarded_result in H as ->; [|done].
  assert (∀ n, n ∉ header_names → installed m !! n = m !! n) as Hframe.
  { intros n Hn. apply installed_other.
    - intros ->. apply Hn, elem_of_header_names. by left.
    - intros k <-. apply Hn, elem_of_header_names. right. by exists k. }
  split; [exact Hframe|].
  split; [|split; [apply installed_guard | apply installed_key]].
  apply set_eq. intros n. rewrite elem_of_union, !elem_of_dom.
  destruct (decide (n ∈ header_names)) as [Hn|Hn].
  - split; [by right|]. intros _.
    apply elem_of_header_names in Hn as [->|[k ->]].
    + rewrite installed_guard. eauto.
    + rewrite installed_key. eauto.
  - rewrite Hframe by done. tauto.
Qed.

Lemma include_frame_witness :
  (∀ n, n ∉ header_names →
        installed {["LED_PIN" := [PPNumber "13"]]} !! n
        = ({["LED_PIN" := [PPNumber "13"]]} : gmap string (list pp_token)) !! n) ∧
  dom (installed {["LED_PIN" := [PPNumber "13"]]})
    = dom ({["LED_PIN" := [PPNumber "13"]]} : gmap string (list pp_token))
      ∪ header_names ∧
  installed {["LED_PIN" := [PPNumber "13"]]} !! EDGECHAIN_CONFIG_H = Some [] ∧
  (∀ k, installed {["LED_PIN" := [PPNumber "13"]]} !! key_name k
        = Some (key_body k)).
Proof.
  apply (include_frame {["LED_PIN" := [PPNumber "13"]]}
           (installed {["LED_PIN" := [PPNumber "13"]]})).
  - reflexivity.
  - vm_compute. reflexivity.
Defined.

(** X3. The header is balanced: whenever processing it succeeds, the
    stack of open conditional groups is the one it started with, so the
    header can be included inside any conditional group of its user. *)
Theorem config_h_balanced st st' :
  run config_h st = Some st' → groups st' = groups st.
Proof.
  rewrite config_h_shape.
  change (run (?d :: ?ds) ?s) with (step d s ≫= run ds).
  cbn [step mbind option_bind].
  set (st1 := PPState _ _). rewrite app_comm_cons, run_app.
  destruct (run _ st1) as [st2|] eqn:E; [|done].
  apply run_defines_groups in E; [|repeat constructor].
  cbn [mbind option_bind run step]. rewrite E. subst st1.
  cbn [groups]. by intros [= <-].
Qed.

Lemma config_h_balanced_witness :
  groups (PPState (installed ∅) [true; true]) = [true; true].
Proof.
  apply (config_h_balanced (PPState ∅ [true; true])
           (PPState (installed ∅) [true; true])).
  vm_compute. reflexivity.
Defined.

(** X4. Inside a conditional group that is being skipped, the header is
    inert: processing it succeeds and defines nothing, not even its
    guard. *)
Theorem config_h_skipped st :
  keeping st = false → run config_h st = Some st.
Proof.
  intros Hk. rewrite config_h_shape.
  change (run (?d :: ?ds) ?s) with (step d s ≫= run ds).
  cbn [step mbind option_bind]. rewrite Hk. cbn [andb].
  change (run (?d :: ?ds) ?s) with (step d s ≫= run ds).
  cbn [step keeping groups mbind option_bind].
  rewrite run_app, run_defines_skipped by reflexivity.
  by destruct st.
Qed.

Lemma config_h_skipped_witness :
  run config_h (PPState ∅ [false]) = Some (PPState ∅ [false]).
Proof. apply (config_h_skipped (PPState ∅ [false])). reflexivity. Defined.

(** X5. A first inclusion succeeds whenever each of the eight names is
    either undefined or already defined with the very replacement list the
    header gives it; the result is the table with the guard and the eight
    definitions entered. *)
Theorem include_benign_redefinition m :
  m !! EDGECHAIN_CONFIG_H = None → compatible m →
  include config_h m = Some (installed m).
Proof. apply include_compatible. Qed.

Lemma include_benign_redefinition_witness :
  include config_h {["BAUD_RATE" := [PPNumber "115200"]]}
  = Some (installed {["BAUD_RATE" := [PPNumber "115200"]]}).
Proof.
  apply (include_benign_redefinition {["BAUD_RATE" := [PPNumber "115200"]]}).
  - reflexivity.
  - intros k. destruct k; first [left; reflexivity | right; reflexivity].
Defined.



(** X7. The guard only saves work: if the guard is removed after a
    successful inclusion and the header is included again, every
    definition is repeated with an identical replacement list, the
    inclusion succeeds and the macro table is the same as before. *)
Theorem reinclude_after_undef m m' :
  m !! EDGECHAIN_CONFIG_H = None →
  include config_h m = Some m' →
  include config_h (delete EDGECHAIN_CONFIG_H m') = Some m'.
Proof.
  intros Hg H. apply include_unguarded_result in H as ->; [|done].
  rewrite include_compatible.
  - f_equal. unfold installed at 1. rewrite insert_delete_eq.
    fold (installed m). rewrite (insert_id (installed m)) by apply installed_guard.
    apply foldl_install_id. intros k _. apply installed_key.
  - apply lookup_delete_eq.
  - intros k. right. rewrite lookup_delete_ne by (symmetry; apply key_name_not_guard).
    apply installed_key.
Qed.

Lemma reinclude_after_undef_witness :
  include config_h (delete EDGECHAIN_CONFIG_H (installed ∅))
  = Some (installed ∅).
Proof.
  apply (reinclude_after_undef ∅ (installed ∅)).
  - reflexivity.
  - vm_compute. reflexivity.
Defined.

End Inclusion.
